(** * Reaction-diffusion on a grid: the Turing-pattern notebook

    A shallow embedding of [notebooks/chapter12_deterministic/04_turing.ipynb]
    (the parameter cells, [laplacian], the time-stepping loop and its Neumann
    boundary block) and the properties its specification states about it.

    The notebook computes with numpy [float64] arrays.  The embedding keeps
    the arithmetic abstract (class [Arith]): every result about slicing,
    in-place assignment, evaluation order and boundary copies is proved for
    any arithmetic whatsoever, hence for the machine's.  Results that need
    algebra are proved for the exact rationals [Qc], the arithmetic the
    formulas of the notebook are written in; rounding, overflow and NaN are
    not part of that instance. *)

From Stdlib Require Import ZArith QArith Qcanon Qround Lia.
From stdpp Require Import base tactics option list numbers.

Set Default Proof Using "Type".

(** ** Python exceptions *)

Inductive error := ZeroDivisionError | ValueError | IndexError.

Inductive result (A : Type) :=
  | OK (a : A)
  | Raise (e : error).
Arguments OK {A} a.
Arguments Raise {A} e.

Global Instance result_ret : MRet result := @OK.
Global Instance result_bind : MBind result := λ A B f m,
  match m with OK a => f a | Raise e => Raise e end.

(** ** Scalars

    The operations the notebook applies to numbers: the four arithmetic
    operators, [**] with an integer literal as exponent, the promotion of an
    [int] to a float, decimal literals ([of_decimal m e] is [m]e[e], so [.9]
    is [of_decimal 9 (-1)]), the test behind [ZeroDivisionError] and [int()]. *)

Class Arith (F : Type) := {
  add : F → F → F;
  sub : F → F → F;
  mul : F → F → F;
  div : F → F → F;
  pow : F → Z → F;
  of_int : Z → F;
  of_decimal : Z → Z → F;
  is_zero : F → bool;
  trunc : F → Z;
}.

Global Instance arith_inhabited `{Arith F} : Inhabited F := populate (of_int 0).

(** Exact rational arithmetic. Division by zero yields zero here, so every
    statement made in this instance keeps its divisors away from zero. *)
Definition Qc_pow (x : Qc) (k : Z) : Qc :=
  if decide (0 ≤ k)%Z then Qcpower x (Z.to_nat k)
  else Qcinv (Qcpower x (Z.to_nat (- k))).

Definition Qc_trunc (x : Qc) : Z := Z.quot (Qnum x) (Zpos (Qden x)).

Global Instance Qc_arith : Arith Qc := {|
  add := Qcplus;
  sub := Qcminus;
  mul := Qcmult;
  div := Qcdiv;
  pow := Qc_pow;
  of_int := Qc_of_Z;
  of_decimal m e := Qcmult (Qc_of_Z m) (Qc_pow (Qc_of_Z 10) e);
  is_zero x := bool_decide (x = Q2Qc 0);
  trunc := Qc_trunc;
|}.

Section Numpy.
Context `{Arith F}.

(** A Python scalar division raises on a zero divisor. *)
Definition pydiv (x y : F) : result F :=
  if is_zero y then Raise ZeroDivisionError else OK (div x y).

(** ** Arrays

    A two-dimensional array is the list of its rows. *)
Local Abbreviation grid := (list (list F)).

(** Row lengths; an [n]×[m] array has shape [replicate n m]. *)
Definition shape (g : grid) : list nat := length <$> g.

Definition has_shape (n m : nat) (g : grid) : Prop := shape g = replicate n m.

(** The notebook's fields are square. *)
Definition is_grid (n : nat) (g : grid) : Prop := has_shape n n g.

(** [g[i][j]] *)
Definition cell (g : grid) (i j : nat) : F := (g !!! i) !!! j.

(** [np.full((n, m), c)] *)
Definition full (n m : nat) (c : F) : grid := replicate n (replicate m c).

(** A slice bound [i] on an axis of length [len]: negative bounds count from
    the end, and the result is clamped to [0..len]. *)
Definition bound (len : nat) (i : Z) : nat :=
  Z.to_nat (Z.min (Z.max 0 (if decide (i < 0)%Z then i + Z.of_nat len else i))
                  (Z.of_nat len)).

(** [l[start:stop]]; [stop = None] is an omitted upper bound. *)
Definition upto (i : Z) : option Z := Some i.
Definition to_end : option Z := None.
Global Arguments upto i%_Z.

Definition slice {A} (start : Z) (stop : option Z) (l : list A) : list A :=
  let lo := bound (length l) start in
  let hi := from_option (bound (length l)) (length l) stop in
  take (hi - lo) (drop lo l).

(** [g[r0:r1, c0:c1]] *)
Definition slice2 (r0 : Z) (r1 : option Z) (c0 : Z) (c1 : option Z)
    (g : grid) : grid :=
  slice c0 c1 <$> slice r0 r1 g.
Global Arguments slice {A} start%_Z stop l.
Global Arguments slice2 r0%_Z r1 c0%_Z c1 g.

(** Elementwise operators: array with array, scalar with array, array with
    scalar. *)
Definition ew {X} (f : F → X → F) (A : grid) (B : list (list X)) : grid :=
  zip_with (zip_with f) A B.
Definition ew_l (f : F → F → F) (c : F) (B : grid) : grid :=
  fmap (M:=list) (f c) <$> B.
Definition ew_r {X} (f : F → X → F) (A : grid) (c : X) : grid :=
  fmap (M:=list) (λ x, f x c) <$> A.

End Numpy.

Declare Scope array_scope.
Delimit Scope array_scope with arr.
Infix ":+:" := (ew add) (at level 50, left associativity) : array_scope.
Infix ":-:" := (ew sub) (at level 50, left associativity) : array_scope.
Infix "*:" := (ew_l mul) (at level 40, no associativity) : array_scope.
Infix ":/" := (ew_r div) (at level 40, left associativity) : array_scope.
Infix ":+" := (ew_r add) (at level 50, left associativity) : array_scope.
Infix ":**" := (ew_r pow) (at level 30, right associativity) : array_scope.

Section Notebook.
Context `{Arith F}.
Local Abbreviation grid := (list (list F)).
Local Open Scope array_scope.

(** ** The discrete Laplace operator

<<
def laplacian(Z):
    Ztop = Z[0:-2,1:-1]
    Zleft = Z[1:-1,0:-2]
    Zbottom = Z[2:,1:-1]
    Zright = Z[1:-1,2:]
    Zcenter = Z[1:-1,1:-1]
    return (Ztop + Zleft + Zbottom + Zright - 4 * Zcenter) / dx**2
>>
    [dx] is the notebook's global. *)
Definition laplacian (dx : F) (Z : grid) : grid :=
  let Ztop := slice2 0 (upto (-2)) 1 (upto (-1)) Z in
  let Zleft := slice2 1 (upto (-1)) 0 (upto (-2)) Z in
  let Zbottom := slice2 2 to_end 1 (upto (-1)) Z in
  let Zright := slice2 1 (upto (-1)) 2 to_end Z in
  let Zcenter := slice2 1 (upto (-1)) 1 (upto (-1)) Z in
  (Ztop :+: Zleft :+: Zbottom :+: Zright :-: of_int 4 *: Zcenter) :/ pow dx 2.



(** ** The notebook's globals

    The scalars set by the parameter cells, under their names in the
    notebook, and the two arrays the loop updates in place. *)

Record params := {
  a : F; b : F; tau : F; k : F;
  size : Z; dx : F;
  T : F; dt : F; n : Z;
}.

Record state := { U : grid; V : grid }.

Inductive field := fU | fV.

Definition get (x : field) (s : state) : grid :=
  match x with fU => U s | fV => V s end.

Definition set (x : field) (g : grid) (s : state) : state :=
  match x with
  | fU => {| U := g; V := V s |}
  | fV => {| U := U s; V := g |}
  end.

(** Statements run in the state monad over the pair of arrays, with Python's
    exceptions. *)
Definition M (A : Type) : Type := state → result (A * state).
Definition ret {A} (x : A) : M A := λ s, OK (x, s).
Definition bind {A B} (m : M A) (f : A → M B) : M B := λ s,
  match m s with OK (x, s') => f x s' | Raise e => Raise e end.
Definition lift {A} (r : result A) : M A := λ s,
  match r with OK x => OK (x, s) | Raise e => Raise e end.

Declare Scope M_scope.
Delimit Scope M_scope with M.
Notation "x <- m ;; k" := (bind m (λ x, k))
  (at level 20, m at level 99, k at level 200) : M_scope.
Notation "m ;; k" := (bind m (λ _, k))
  (at level 100, k at level 200, right associativity) : M_scope.
Local Open Scope M_scope.

Definition read (x : field) : M grid := λ s, OK (get x s, s).
Definition write (x : field) (g : grid) : M unit := λ s, OK (tt, set x g s).

(** An expression is evaluated in the state current at that point. *)
Definition eval {A} (e : state → A) : M A := λ s, OK (e s, s).

Fixpoint for_each {A} (xs : list A) (body : A → M unit) : M unit :=
  match xs with
  | [] => ret tt
  | x :: xs => body x ;; for_each xs body
  end.

(** [for i in range(n)] *)
Fixpoint for_range (n : nat) (body : M unit) : M unit :=
  match n with
  | O => ret tt
  | S n => body ;; for_range n body
  end.

(** ** In-place assignment *)

(** An index [i] on an axis of length [len]. *)
Definition index (len : nat) (i : Z) : result nat :=
  if decide (0 ≤ i < Z.of_nat len)%Z then OK (Z.to_nat i)
  else if decide (- Z.of_nat len ≤ i < 0)%Z then OK (Z.to_nat (i + Z.of_nat len))
  else Raise IndexError.

(** [l[lo:lo+len(xs)] = xs], element by element. *)
Definition write_at {A} (lo : nat) (xs l : list A) : list A :=
  imap (λ i x, if decide (lo ≤ i) then default x (xs !! (i - lo)) else x) l.

(** [g[1:-1,1:-1] = X].  Every right-hand side assigned by the loop has the
    shape of the slice ([rhs_U_shape], [rhs_V_shape]), so numpy has nothing
    to broadcast and no shape error to raise. *)
Definition assign_interior (g X : grid) : grid :=
  let r0 := bound (length g) 1 in
  imap (λ i row,
          if decide (r0 ≤ i) then
            match X !! (i - r0) with
            | Some xs => write_at (bound (length row) 1) xs row
            | None => row
            end
          else row) g.

(** [Z[dst,:] = Z[src,:]] *)
Definition copy_row (dst src : Z) (g : grid) : result grid :=
  s ← index (length g) src;
  d ← index (length g) dst;
  OK (<[d := g !!! s]> g).

(** [Z[:,dst] = Z[:,src]] *)
Definition copy_col (dst src : Z) (g : grid) : result grid :=
  mapM (λ row : list F,
          s ← index (length row) src;
          d ← index (length row) dst;
          OK (<[d := row !!! s]> row)) g.

Global Arguments index len i%_Z.
Global Arguments copy_row (dst src)%_Z g.
Global Arguments copy_col (dst src)%_Z g.

(** The Neumann block of the loop, for one array:
<<
        Z[0,:] = Z[1,:]
        Z[-1,:] = Z[-2,:]
        Z[:,0] = Z[:,1]
        Z[:,-1] = Z[:,-2]
>> *)
Definition row_copies (Z : grid) : result grid :=
  Z ← copy_row 0 1 Z;
  copy_row (-1) (-2) Z.

Definition col_copies (Z : grid) : result grid :=
  Z ← copy_col 0 1 Z;
  copy_col (-1) (-2) Z.

Definition neumann (Z : grid) : result grid :=
  Z ← row_copies Z;
  col_copies Z.

(** ** One iteration of the loop
<<
    deltaU = laplacian(U)
    deltaV = laplacian(V)
    Uc = U[1:-1,1:-1]
    Vc = V[1:-1,1:-1]
    U[1:-1,1:-1], V[1:-1,1:-1] = \
        Uc + dt * (a * deltaU + Uc - Uc**3 - Vc + k), \
        Vc + dt * (b * deltaV + Uc - Vc) / tau
    for Z in (U, V):
        ...
>>
    [Uc] and [Vc] are views: they hold no values of their own and read the
    array they were sliced from whenever they are used.  The right-hand side
    of the assignment is a tuple: both components are evaluated, left to
    right, before the first target is assigned. *)
Definition call_laplacian (dx : F) (x : field) : M grid :=
  Z <- read x ;; ret (laplacian dx Z).

Definition view (x : field) : state → grid := λ s,
  slice2 1 (upto (-1)) 1 (upto (-1)) (get x s).

Definition rhs_U (p : params) (deltaU : grid) (Uc Vc : state → grid)
    : state → grid := λ s,
  Uc s :+: dt p *: (a p *: deltaU :+: Uc s :-: Uc s :** 3%Z :-: Vc s :+ k p).

Definition rhs_V (p : params) (deltaV : grid) (Uc Vc : state → grid)
    : state → grid := λ s,
  Vc s :+: dt p *: (b p *: deltaV :+: Uc s :-: Vc s) :/ tau p.

Definition assign_view (x : field) (X : grid) : M unit :=
  Z <- read x ;; write x (assign_interior Z X).

Definition enforce (x : field) : M unit :=
  Z <- read x ;; Z' <- lift (neumann Z) ;; write x Z'.

Definition step (p : params) : M unit :=
  deltaU <- call_laplacian (dx p) fU ;;
  deltaV <- call_laplacian (dx p) fV ;;
  let Uc := view fU in
  let Vc := view fV in
  rhs <- eval (λ s, (rhs_U p deltaU Uc Vc s, rhs_V p deltaV Uc Vc s)) ;;
  assign_view fU rhs.1 ;;
  assign_view fV rhs.2 ;;
  for_each [fU; fV] enforce.

(** The iteration as the specification words it: both right-hand sides are
    computed from one snapshot of the fields taken before the step, and
    only then are the two fields written back. *)
Definition step_snapshot (p : params) : M unit := λ s,
  let U0 := U s in
  let V0 := V s in
  let Uc := slice2 1 (upto (-1)) 1 (upto (-1)) U0 in
  let Vc := slice2 1 (upto (-1)) 1 (upto (-1)) V0 in
  let newU :=
    Uc :+: dt p *: (a p *: laplacian (dx p) U0 :+: Uc :-: Uc :** 3%Z :-: Vc :+ k p) in
  let newV :=
    Vc :+: dt p *: (b p *: laplacian (dx p) V0 :+: Uc :-: Vc) :/ tau p in
  U1 ← neumann (assign_interior U0 newU);
  V1 ← neumann (assign_interior V0 newV);
  OK (tt, {| U := U1; V := V1 |}).

(** The order the specification rules out: [U] is written before the
    right-hand side of [V] is evaluated, so that [Uc] already shows the new
    values.  It is here to be told apart from [step]. *)
Definition step_sequential (p : params) : M unit :=
  deltaU <- call_laplacian (dx p) fU ;;
  deltaV <- call_laplacian (dx p) fV ;;
  let Uc := view fU in
  let Vc := view fV in
  rhs1 <- eval (rhs_U p deltaU Uc Vc) ;;
  assign_view fU rhs1 ;;
  rhs2 <- eval (rhs_V p deltaV Uc Vc) ;;
  assign_view fV rhs2 ;;
  for_each [fU; fV] enforce.




End Notebook.

Global Arguments params F : clear implicits.
Global Arguments state F : clear implicits.
Global Arguments M F A : clear implicits.

(** ** Notions used to state the properties *)

(** The upper bound of a slice on an axis of length [len]. *)
Definition stop_bound (len : nat) (stop : option Z) : nat :=
  from_option (bound len) len stop.

(** The cell whose value ends up at position [i] of an axis of length [n]
    once the two copies along that axis are done: [Z[-1] = Z[-2]] reads the
    result of [Z[0] = Z[1]]. *)
Definition nearest (n i : nat) : nat :=
  let i' := if decide (i = n - 1) then n - 2 else i in
  if decide (i' = 0) then 1 else i'.

Section Update.
Context `{Arith F}.
Implicit Types (p : params F) (s : state F) (i j : nat).

(** The new value of an interior cell of [U] and of [V], from the values
    the fields hold in [s]. *)
Definition next_U p s i j : F :=
  let u := cell (U s) i j in
  let v := cell (V s) i j in
  let lap := cell (laplacian (dx p) (U s)) (i - 1) (j - 1) in
  add u (mul (dt p) (add (sub (sub (add (mul (a p) lap) u) (pow u 3)) v) (k p))).

Definition next_V p s i j : F :=
  let u := cell (U s) i j in
  let v := cell (V s) i j in
  let lap := cell (laplacian (dx p) (V s)) (i - 1) (j - 1) in
  add v (div (mul (dt p) (sub (add (mul (b p) lap) u) v)) (tau p)).

End Update.

(** The discrete Neumann condition on an [nn]×[nn] field: every border row
    and column repeats the row or column next to it. *)
Definition zero_flux {F} `{Arith F} (nn : nat) (g : list (list F)) : Prop :=
  ∀ i, i < nn →
    cell g 0 i = cell g 1 i ∧ cell g (nn - 1) i = cell g (nn - 2) i ∧
    cell g i 0 = cell g i 1 ∧ cell g i (nn - 1) = cell g i (nn - 2).

(** The four corners of an [nn]×[nn] field. *)
Definition corner (nn i j : nat) : Prop :=
  (i = 0 ∨ i = nn - 1) ∧ (j = 0 ∨ j = nn - 1).





(** ** Sample data *)

Definition example_params : params Qc :=
  {| a := Qc_of_Z 1; b := Qc_of_Z 1; tau := Qc_of_Z 1; k := Qc_of_Z 0;
     size := 3; dx := Q2Qc (2 # 3); T := Q2Qc (1 # 5); dt := Q2Qc (1 # 5);
     n := 1 |}.


Definition sample_field : list (list Qc) :=
  fmap (M:=list) Qc_of_Z <$> [[1; 2; 3]; [4; 5; 6]; [7; 8; 10]]%Z.

Definition sample_state : state Qc :=
  {| U := sample_field; V := full 3 3 (Qc_of_Z 1) |}.

Definition small_field : list (list Qc) :=
  fmap (M:=list) Qc_of_Z <$> [[1; 2]; [3; 4]]%Z.

(** [sample_field] with its border changed and its interior kept. *)
Definition other_border : list (list Qc) :=
  fmap (M:=list) Qc_of_Z <$> [[0; 0; 0]; [0; 5; 0]; [0; 0; 0]]%Z.

(** [sample_field] with its corners changed. *)
Definition other_corners : list (list Qc) :=
  fmap (M:=list) Qc_of_Z <$> [[0; 2; 0]; [4; 5; 6]; [0; 8; 0]]%Z.

Ltac solve_bound :=
  unfold stop_bound, upto, to_end, bound; simpl; repeat case_decide; lia.


(** * Arrays: shapes and cells *)

Section Arrays.
Context `{Arith F}.
Local Abbreviation grid := (list (list F)).
Implicit Types (g A B X : grid) (i j n m : nat).

Lemma has_shape_alt n m g :
  has_shape n m g ↔ length g = n ∧ ∀ i, i < n → length (g !!! i) = m.
Proof.
  unfold has_shape, shape. split.
  - intros Hs.
    assert (length g = n) as Hn.
    { by rewrite <-(length_fmap length g), Hs, length_replicate. }
    split; [done|]. intros i Hi.
    rewrite <-(list_lookup_total_fmap length g i) by lia.
    rewrite Hs. by apply lookup_total_replicate_2.
  - intros [Hn Hrow].
    apply (list_eq_same_length _ _ n); [by rewrite length_replicate|
      by rewrite length_fmap|].
    intros i x y Hi Hx Hy.
    apply lookup_replicate in Hy as [-> _].
    rewrite list_lookup_fmap in Hx.
    destruct (g !! i) as [r|] eqn:Hr; simplify_eq/=.
    rewrite <-(Hrow i Hi). by rewrite (list_lookup_total_correct _ _ _ Hr).
Qed.

Lemma has_shape_length n m g : has_shape n m g → length g = n.
Proof. by intros [? _]%has_shape_alt. Qed.

Lemma has_shape_row n m g i : has_shape n m g → i < n → length (g !!! i) = m.
Proof. intros [_ ?]%has_shape_alt. auto. Qed.

(** Two arrays of one shape with the same cells are the same array. *)
Lemma grid_ext n m g g' :
  has_shape n m g → has_shape n m g' →
  (∀ i j, i < n → j < m → cell g i j = cell g' i j) → g = g'.
Proof.
  intros [Hn Hr]%has_shape_alt [Hn' Hr']%has_shape_alt Hc.
  apply (list_eq_same_length _ _ n); [done..|].
  intros i r r' Hi Hg Hg'.
  apply list_lookup_total_correct in Hg, Hg'.
  specialize (Hr i Hi). specialize (Hr' i Hi). rewrite Hg in Hr. rewrite Hg' in Hr'.
  apply (list_eq_same_length _ _ m); [done..|].
  intros j x y Hj Hx Hy.
  apply list_lookup_total_correct in Hx, Hy.
  specialize (Hc i j Hi Hj). unfold cell in Hc. by rewrite Hg, Hg', Hx, Hy in Hc.
Qed.

Lemma full_shape n m (c : F) : has_shape n m (full n m c).
Proof.
  unfold has_shape, shape, full. by rewrite fmap_replicate, length_replicate.
Qed.

Lemma full_cell n m (c : F) i j : i < n → j < m → cell (full n m c) i j = c.
Proof.
  intros. unfold cell, full. by rewrite !lookup_total_replicate_2.
Qed.

(** *** Slices *)

Lemma bound_le len z : bound len z ≤ len.
Proof. unfold bound. lia. Qed.

Lemma bound_nonneg len z : (0 ≤ z)%Z → bound len z = min (Z.to_nat z) len.
Proof. unfold bound. intros. case_decide; lia. Qed.

Lemma bound_neg len z : (z < 0)%Z → bound len z = len - Z.to_nat (- z).
Proof. unfold bound. intros. case_decide; lia. Qed.

Lemma stop_bound_le len stop : stop_bound len stop ≤ len.
Proof. destruct stop; simpl; [apply bound_le|done]. Qed.

Lemma length_slice {E : Type} a b (l : list E) :
  length (slice a b l) = stop_bound (length l) b - bound (length l) a.
Proof.
  unfold slice. rewrite length_take, length_drop.
  pose proof (stop_bound_le (length l) b). unfold stop_bound in *. lia.
Qed.

Lemma lookup_total_slice {E : Type} `{!Inhabited E} a b (l : list E) i :
  i < stop_bound (length l) b - bound (length l) a →
  slice a b l !!! i = l !!! (bound (length l) a + i).
Proof.
  intros Hi. unfold slice.
  rewrite lookup_total_take_lt by done. by rewrite lookup_total_drop.
Qed.

Lemma slice2_shape n m g r0 r1 c0 c1 :
  has_shape n m g →
  has_shape (stop_bound n r1 - bound n r0) (stop_bound m c1 - bound m c0)
            (slice2 r0 r1 c0 c1 g).
Proof.
  intros [Hn Hr]%has_shape_alt. apply has_shape_alt. unfold slice2.
  rewrite length_fmap, length_slice, Hn. split; [done|].
  intros i Hi.
  rewrite (list_lookup_total_fmap (slice c0 c1))
    by (rewrite length_slice, Hn; lia).
  rewrite lookup_total_slice by (rewrite Hn; lia).
  pose proof (stop_bound_le n r1).
  rewrite length_slice, Hn, Hr; [done|lia].
Qed.

Lemma slice2_cell n m g r0 r1 c0 c1 i j :
  has_shape n m g →
  i < stop_bound n r1 - bound n r0 → j < stop_bound m c1 - bound m c0 →
  cell (slice2 r0 r1 c0 c1 g) i j = cell g (bound n r0 + i) (bound m c0 + j).
Proof.
  intros [Hn Hr]%has_shape_alt Hi Hj. unfold cell, slice2.
  pose proof (stop_bound_le n r1).
  rewrite (list_lookup_total_fmap (slice c0 c1))
    by (rewrite length_slice, Hn; lia).
  rewrite (lookup_total_slice r0 r1 g) by (rewrite Hn; lia).
  rewrite Hn.
  rewrite lookup_total_slice; rewrite Hr by lia; done.
Qed.

(** *** Elementwise operators *)

Lemma ew_shape {E : Type} (f : F → E → F) n m A (B : list (list E)) :
  has_shape n m A → length <$> B = replicate n m → has_shape n m (ew f A B).
Proof.
  unfold has_shape, shape, ew. intros HA HB.
  revert n B HA HB. induction A as [|r A IH]; intros [|n] [|r' B] HA HB;
    simplify_eq/=; [done..|].
  f_equal; [|by eapply IH]. rewrite length_zip_with. lia.
Qed.

Lemma ew_cell {E : Type} `{!Inhabited E} (f : F → E → F) n m A (B : list (list E)) i j :
  has_shape n m A → length <$> B = replicate n m → i < n → j < m →
  cell (ew f A B) i j = f (cell A i j) ((B !!! i) !!! j).
Proof.
  intros [Hn Hr]%has_shape_alt HB Hi Hj. unfold cell, ew.
  assert (length B = n) as HnB.
  { by rewrite <-(length_fmap length B), HB, length_replicate. }
  assert (length (B !!! i) = m) as HrB.
  { rewrite <-(list_lookup_total_fmap length B i) by lia.
    rewrite HB. by apply lookup_total_replicate_2. }
  rewrite (lookup_total_zip_with (zip_with f)) by lia.
  rewrite (lookup_total_zip_with f); [done| |lia]. rewrite Hr; done.
Qed.

Lemma ew_l_shape (f : F → F → F) n m c B :
  has_shape n m B → has_shape n m (ew_l f c B).
Proof.
  unfold has_shape, shape, ew_l. intros <-.
  rewrite <-list_fmap_compose. apply list_fmap_ext. intros ? r _. simpl.
  by rewrite length_fmap.
Qed.

Lemma ew_l_cell (f : F → F → F) n m c B i j :
  has_shape n m B → i < n → j < m →
  cell (ew_l f c B) i j = f c (cell B i j).
Proof.
  intros [Hn Hr]%has_shape_alt Hi Hj. unfold cell, ew_l.
  rewrite (list_lookup_total_fmap (fmap (f c))) by lia.
  rewrite (list_lookup_total_fmap (f c)); [done|]. rewrite Hr; done.
Qed.

Lemma ew_r_shape {E : Type} (f : F → E → F) n m A c :
  has_shape n m A → has_shape n m (ew_r f A c).
Proof.
  unfold has_shape, shape, ew_r. intros <-.
  rewrite <-list_fmap_compose. apply list_fmap_ext. intros ? r _. simpl.
  by rewrite length_fmap.
Qed.

Lemma ew_r_cell {E : Type} (f : F → E → F) n m A c i j :
  has_shape n m A → i < n → j < m →
  cell (ew_r f A c) i j = f (cell A i j) c.
Proof.
  intros [Hn Hr]%has_shape_alt Hi Hj. unfold cell, ew_r.
  rewrite (list_lookup_total_fmap (fmap (λ x, f x c))) by lia.
  rewrite (list_lookup_total_fmap (λ x, f x c)); [done|]. rewrite Hr; done.
Qed.

(** *** The slices of the notebook *)

Lemma slice2_shape_eq n m n' m' g r0 r1 c0 c1 :
  has_shape n m g →
  n' = stop_bound n r1 - bound n r0 → m' = stop_bound m c1 - bound m c0 →
  has_shape n' m' (slice2 r0 r1 c0 c1 g).
Proof. intros ? -> ->. by apply slice2_shape. Qed.

Lemma slice2_cell_eq n m g r0 r1 c0 c1 i j i' j' :
  has_shape n m g →
  i < stop_bound n r1 - bound n r0 → j < stop_bound m c1 - bound m c0 →
  i' = bound n r0 + i → j' = bound m c0 + j →
  cell (slice2 r0 r1 c0 c1 g) i j = cell g i' j'.
Proof. intros ??? -> ->. by apply slice2_cell. Qed.

End Arrays.

(** * The Laplacian *)

Section Laplacian.
Context `{Arith F}.
Local Abbreviation grid := (list (list F)).
Implicit Types (Z : grid) (i j n : nat).
Local Open Scope array_scope.

Lemma laplacian_shape n (dx : F) Z :
  has_shape n n Z → has_shape (n - 2) (n - 2) (laplacian dx Z).
Proof.
  intros HZ. unfold laplacian.
  apply ew_r_shape.
  repeat apply ew_shape; try apply ew_l_shape;
    try (eapply slice2_shape_eq; [exact HZ|solve_bound..]).
Qed.

(** The five-point stencil, in the indices of the result. *)
Lemma laplacian_cell n (dx : F) Z i j :
  has_shape n n Z → i < n - 2 → j < n - 2 →
  cell (laplacian dx Z) i j =
    div (sub (add (add (add (cell Z i (j + 1)) (cell Z (i + 1) j))
                       (cell Z (i + 2) (j + 1)))
                  (cell Z (i + 1) (j + 2)))
             (mul (of_int 4) (cell Z (i + 1) (j + 1))))
        (pow dx 2).
Proof.
  intros HZ Hi Hj. unfold laplacian.
  assert (∀ r0 r1 c0 c1,
    n - 2 = stop_bound n r1 - bound n r0 →
    n - 2 = stop_bound n c1 - bound n c0 →
    has_shape (n - 2) (n - 2) (slice2 r0 r1 c0 c1 Z)) as Hs.
  { intros. by eapply slice2_shape_eq. }
  pose proof (Hs 0%Z (upto (-2)) 1%Z (upto (-1)) ltac:(solve_bound) ltac:(solve_bound)) as Htop.
  pose proof (Hs 1%Z (upto (-1)) 0%Z (upto (-2)) ltac:(solve_bound) ltac:(solve_bound)) as Hleft.
  pose proof (Hs 2%Z to_end 1%Z (upto (-1)) ltac:(solve_bound) ltac:(solve_bound)) as Hbot.
  pose proof (Hs 1%Z (upto (-1)) 2%Z to_end ltac:(solve_bound) ltac:(solve_bound)) as Hright.
  pose proof (Hs 1%Z (upto (-1)) 1%Z (upto (-1)) ltac:(solve_bound) ltac:(solve_bound)) as Hcen.
  rewrite (ew_r_cell _ (n - 2) (n - 2)); [|repeat apply ew_shape; try apply ew_l_shape; done|done..].
  rewrite (ew_cell _ (n - 2) (n - 2)); [|repeat apply ew_shape; done|by apply ew_l_shape|done..].
  rewrite (ew_cell _ (n - 2) (n - 2)); [|repeat apply ew_shape; done|done..].
  rewrite (ew_cell _ (n - 2) (n - 2)); [|repeat apply ew_shape; done|done..].
  rewrite (ew_cell _ (n - 2) (n - 2)); [|done..].
  change ((?B !!! i) !!! j) with (cell B i j).
  rewrite (ew_l_cell _ (n - 2) (n - 2)) by done.
  rewrite (slice2_cell_eq n n Z 0 _ 1 _ i j i (j + 1)); [|done|solve_bound..].
  rewrite (slice2_cell_eq n n Z 1 _ 0 _ i j (i + 1) j); [|done|solve_bound..].
  rewrite (slice2_cell_eq n n Z 2 _ 1 _ i j (i + 2) (j + 1)); [|done|solve_bound..].
  rewrite (slice2_cell_eq n n Z 1 _ 2 _ i j (i + 1) (j + 2)); [|done|solve_bound..].
  rewrite (slice2_cell_eq n n Z 1 _ 1 _ i j (i + 1) (j + 1)); [|done|solve_bound..].
  done.
Qed.

End Laplacian.

(** * In-place assignment and the boundary copies *)

Section Assignment.
Context `{Arith F}.
Local Abbreviation grid := (list (list F)).
Implicit Types (g X : grid) (i j n m d s : nat).

Lemma has_shape_cons n m (r : list F) g :
  has_shape (S n) m (r :: g) ↔ length r = m ∧ has_shape n m g.
Proof.
  unfold has_shape, shape. simpl. split.
  - by intros [= Hr Hg].
  - intros [Hr Hg]. by f_equal.
Qed.

Lemma length_write_at {E : Type} lo (xs l : list E) :
  length (write_at lo xs l) = length l.
Proof. unfold write_at. by rewrite length_imap. Qed.

Lemma lookup_total_write_at {E : Type} `{!Inhabited E} lo (xs l : list E) j :
  j < length l →
  write_at lo xs l !!! j =
    if decide (lo ≤ j < lo + length xs) then xs !!! (j - lo) else l !!! j.
Proof.
  intros Hj. unfold write_at.
  rewrite (list_lookup_total_imap _ l j) by done.
  destruct (decide (lo ≤ j)) as [Hlo|Hlo]; [|by rewrite decide_False by lia].
  destruct (xs !! (j - lo)) as [x|] eqn:Hx; simpl.
  - rewrite decide_True by (apply lookup_lt_Some in Hx; lia).
    by rewrite (list_lookup_total_correct _ _ _ Hx).
  - rewrite decide_False; [done|]. apply lookup_ge_None in Hx. lia.
Qed.

Lemma assign_interior_shape n m g X :
  has_shape n m g → has_shape n m (assign_interior g X).
Proof.
  intros [Hn Hr]%has_shape_alt. apply has_shape_alt. unfold assign_interior.
  rewrite length_imap. split; [done|]. intros i Hi.
  rewrite (list_lookup_total_imap _ g i) by lia.
  case_decide; [|by apply Hr].
  destruct (X !! _); [|by apply Hr]. rewrite length_write_at. by apply Hr.
Qed.

(** The cells of the slice take the assigned values; all others keep
    theirs. *)
Lemma assign_interior_cell n m g X i j :
  has_shape n m g → has_shape (n - 2) (m - 2) X → i < n → j < m →
  cell (assign_interior g X) i j =
    if decide ((1 ≤ i < n - 1) ∧ (1 ≤ j < m - 1))
    then cell X (i - 1) (j - 1) else cell g i j.
Proof.
  intros [Hn Hr]%has_shape_alt [HnX HrX]%has_shape_alt Hi Hj.
  unfold cell, assign_interior.
  rewrite (list_lookup_total_imap _ g i) by lia.
  rewrite Hn. replace (bound n 1) with 1 by solve_bound.
  destruct (decide (1 ≤ i)) as [Hi1|Hi1]; [|by rewrite decide_False by lia].
  destruct (X !! (i - 1)) as [xs|] eqn:Hxs.
  - assert (i - 1 < n - 2) as Hi2 by (apply lookup_lt_Some in Hxs; lia).
    rewrite (list_lookup_total_correct _ _ _ Hxs).
    rewrite lookup_total_write_at by (rewrite Hr; lia).
    rewrite Hr by lia. replace (bound m 1) with 1 by solve_bound.
    specialize (HrX (i - 1) Hi2).
    rewrite (list_lookup_total_correct _ _ _ Hxs) in HrX. rewrite HrX.
    repeat case_decide; first [done|lia].
  - apply lookup_ge_None in Hxs. by rewrite decide_False by lia.
Qed.

(** *** Indices *)

Lemma index_nonneg len (z : Z) :
  (0 ≤ z < Z.of_nat len)%Z → index len z = OK (Z.to_nat z).
Proof. intros. unfold index. by rewrite decide_True. Qed.

Lemma index_neg len (z : Z) :
  (- Z.of_nat len ≤ z < 0)%Z → index len z = OK (len - Z.to_nat (- z)).
Proof.
  intros. unfold index. rewrite decide_False by lia. rewrite decide_True by done.
  f_equal. lia.
Qed.


(** *** Row and column copies *)

Lemma copy_row_ok n m g (dst src : Z) d s :
  has_shape n m g → index n src = OK s → index n dst = OK d →
  copy_row dst src g = OK (<[d := g !!! s]> g).
Proof.
  intros Hn%has_shape_length Hs Hd. unfold copy_row.
  rewrite Hn, Hs. simpl. by rewrite Hd.
Qed.

Lemma insert_row_shape n m g d s :
  has_shape n m g → s < n → has_shape n m (<[d := g !!! s]> g).
Proof.
  intros [Hn Hr]%has_shape_alt Hs. apply has_shape_alt.
  rewrite length_insert. split; [done|]. intros i Hi.
  rewrite list_lookup_total_insert. case_decide; auto.
Qed.

Lemma insert_row_cell n m g d s i j :
  has_shape n m g → d < n →
  cell (<[d := g !!! s]> g) i j = cell g (if decide (i = d) then s else i) j.
Proof.
  intros Hn%has_shape_length Hd. unfold cell.
  rewrite list_lookup_total_insert.
  destruct (decide (i = d)) as [->|]; [by rewrite decide_True by lia|].
  by rewrite decide_False by lia.
Qed.

Lemma copy_col_ok n m g (dst src : Z) d s :
  has_shape n m g → index m src = OK s → index m dst = OK d →
  copy_col dst src g = OK ((λ row, <[d := row !!! s]> row) <$> g).
Proof.
  intros Hg Hs Hd. unfold copy_col.
  revert n Hg. induction g as [|r g IH]; intros n Hg; [done|].
  destruct n as [|n]; [done|]. apply has_shape_cons in Hg as [Hr Hg].
  simpl. rewrite Hr, Hs. simpl. rewrite Hd. simpl.
  by rewrite (IH n Hg).
Qed.

Lemma insert_col_shape n m g d s :
  has_shape n m g → has_shape n m ((λ row, <[d := row !!! s]> row) <$> g).
Proof.
  unfold has_shape, shape. intros <-.
  rewrite <-list_fmap_compose. apply list_fmap_ext. intros ? r _. simpl.
  by rewrite length_insert.
Qed.

Lemma insert_col_cell n m g d s i j :
  has_shape n m g → i < n → d < m →
  cell ((λ row, <[d := row !!! s]> row) <$> g) i j =
    cell g i (if decide (j = d) then s else j).
Proof.
  intros [Hn Hr]%has_shape_alt Hi Hd. unfold cell.
  rewrite (list_lookup_total_fmap (λ row, <[d := row !!! s]> row)) by lia.
  rewrite list_lookup_total_insert. rewrite Hr by done.
  destruct (decide (j = d)) as [->|]; [by rewrite decide_True by lia|].
  by rewrite decide_False by lia.
Qed.

End Assignment.

(** * The Neumann block *)

Lemma nearest_interior n i : 1 ≤ i < n - 1 → nearest n i = i.
Proof. unfold nearest. intros. repeat case_decide; lia. Qed.

Lemma nearest_idemp n i : 2 ≤ n → nearest n (nearest n i) = nearest n i.
Proof. unfold nearest. intros. repeat case_decide; lia. Qed.

Lemma nearest_lt n i : 2 ≤ n → i < n → nearest n i < n.
Proof. unfold nearest. intros. repeat case_decide; lia. Qed.

Section Boundary.
Context `{Arith F}.
Local Abbreviation grid := (list (list F)).
Implicit Types (g : grid) (i j n m : nat).

Lemma row_copies_spec n m g :
  has_shape n m g → 2 ≤ n →
  ∃ g', row_copies g = OK g' ∧ has_shape n m g' ∧
        ∀ i j, i < n → cell g' i j = cell g (nearest n i) j.
Proof.
  intros Hg Hn. unfold row_copies.
  rewrite (copy_row_ok n m g 0 1 0 1 Hg) by (apply index_nonneg; lia).
  pose proof (insert_row_shape n m g 0 1 Hg ltac:(lia)) as Hg1.
  simpl.
  rewrite (copy_row_ok n m _ (-1) (-2) (n - 1) (n - 2) Hg1);
    [|rewrite index_neg by lia; f_equal; lia..].
  eexists. split; [done|]. split; [apply insert_row_shape; [done|lia]|].
  intros i j Hi.
  rewrite (insert_row_cell n m) by (done || lia).
  rewrite (insert_row_cell n m) by (done || lia).
  unfold nearest. done.
Qed.

Lemma col_copies_spec n m g :
  has_shape n m g → 2 ≤ m →
  ∃ g', col_copies g = OK g' ∧ has_shape n m g' ∧
        ∀ i j, i < n → cell g' i j = cell g i (nearest m j).
Proof.
  intros Hg Hm. unfold col_copies.
  rewrite (copy_col_ok n m g 0 1 0 1 Hg) by (apply index_nonneg; lia).
  pose proof (insert_col_shape n m g 0 1 Hg) as Hg1.
  simpl.
  rewrite (copy_col_ok n m _ (-1) (-2) (m - 1) (m - 2) Hg1);
    [|rewrite index_neg by lia; f_equal; lia..].
  eexists. split; [done|]. split; [by apply insert_col_shape|].
  intros i j Hi.
  rewrite (insert_col_cell n m) by (done || lia).
  rewrite (insert_col_cell n m) by (done || lia).
  unfold nearest. done.
Qed.

(** Every cell of the result is a copy of the nearest cell that lies off the
    border, row-wise and column-wise. *)
Lemma neumann_spec n m g :
  has_shape n m g → 2 ≤ n → 2 ≤ m →
  ∃ g', neumann g = OK g' ∧ has_shape n m g' ∧
        ∀ i j, i < n → cell g' i j = cell g (nearest n i) (nearest m j).
Proof.
  intros Hg Hn Hm. unfold neumann.
  destruct (row_copies_spec n m g Hg Hn) as (g1 & -> & Hg1 & Hc1). simpl.
  destruct (col_copies_spec n m g1 Hg1 Hm) as (g2 & -> & Hg2 & Hc2).
  eexists. split; [done|]. split; [done|].
  intros i j Hi. by rewrite Hc2, Hc1.
Qed.

End Boundary.

(** * One iteration *)

Section Step.
Context `{Arith F}.
Local Abbreviation grid := (list (list F)).
Implicit Types (g : grid) (i j nn : nat) (p : params F) (s : state F).
Local Open Scope array_scope.

Lemma step_unfold p s : step p s = step_snapshot p s.
Proof.
  destruct s as [U0 V0].
  cbv [step step_snapshot call_laplacian assign_view enforce eval rhs_U rhs_V
       view read write lift bind ret for_each get set U V fst snd
       mbind result_bind].
  destruct (neumann (assign_interior U0 _)) as [U1|e]; [|done].
  by destruct (neumann (assign_interior V0 _)) as [V1|e].
Qed.

Lemma view_shape nn g :
  has_shape nn nn g →
  has_shape (nn - 2) (nn - 2) (slice2 1 (upto (-1)) 1 (upto (-1)) g).
Proof. intros. eapply slice2_shape_eq; [done|solve_bound..]. Qed.

Lemma view_cell nn g i j :
  has_shape nn nn g → i < nn - 2 → j < nn - 2 →
  cell (slice2 1 (upto (-1)) 1 (upto (-1)) g) i j = cell g (i + 1) (j + 1).
Proof. intros. eapply slice2_cell_eq; [done|solve_bound..]. Qed.

Lemma rhs_U_shape nn p s :
  has_shape nn nn (U s) → has_shape nn nn (V s) →
  has_shape (nn - 2) (nn - 2)
    (rhs_U p (laplacian (dx p) (U s)) (view fU) (view fV) s).
Proof.
  intros HU HV. unfold rhs_U, view. simpl.
  pose proof (view_shape nn _ HU). pose proof (view_shape nn _ HV).
  pose proof (laplacian_shape nn (dx p) _ HU).
  repeat first [done | apply ew_shape | apply ew_l_shape | apply ew_r_shape].
Qed.

Lemma rhs_V_shape nn p s :
  has_shape nn nn (U s) → has_shape nn nn (V s) →
  has_shape (nn - 2) (nn - 2)
    (rhs_V p (laplacian (dx p) (V s)) (view fU) (view fV) s).
Proof.
  intros HU HV. unfold rhs_V, view. simpl.
  pose proof (view_shape nn _ HU). pose proof (view_shape nn _ HV).
  pose proof (laplacian_shape nn (dx p) _ HV).
  repeat first [done | apply ew_shape | apply ew_l_shape | apply ew_r_shape].
Qed.

Lemma rhs_U_cell nn p s i j :
  has_shape nn nn (U s) → has_shape nn nn (V s) →
  1 ≤ i < nn - 1 → 1 ≤ j < nn - 1 →
  cell (rhs_U p (laplacian (dx p) (U s)) (view fU) (view fV) s) (i - 1) (j - 1)
  = next_U p s i j.
Proof.
  intros HU HV Hi Hj. unfold rhs_U, next_U, view. simpl.
  pose proof (view_shape nn _ HU) as HUc. pose proof (view_shape nn _ HV) as HVc.
  pose proof (laplacian_shape nn (dx p) _ HU) as HL.
  assert (i - 1 < nn - 2) as Hi' by lia. assert (j - 1 < nn - 2) as Hj' by lia.
  repeat first
    [ rewrite (ew_cell _ (nn - 2) (nn - 2)) by
        (repeat first [done | apply ew_shape | apply ew_l_shape | apply ew_r_shape])
    | rewrite (ew_l_cell _ (nn - 2) (nn - 2)) by
        (repeat first [done | apply ew_shape | apply ew_l_shape | apply ew_r_shape])
    | rewrite (ew_r_cell _ (nn - 2) (nn - 2)) by
        (repeat first [done | apply ew_shape | apply ew_l_shape | apply ew_r_shape])
    | progress change ((?B !!! (i - 1)) !!! (j - 1)) with (cell B (i - 1) (j - 1)) ].
  rewrite !(view_cell nn) by done.
  by replace (i - 1 + 1) with i by lia; replace (j - 1 + 1) with j by lia.
Qed.

Lemma rhs_V_cell nn p s i j :
  has_shape nn nn (U s) → has_shape nn nn (V s) →
  1 ≤ i < nn - 1 → 1 ≤ j < nn - 1 →
  cell (rhs_V p (laplacian (dx p) (V s)) (view fU) (view fV) s) (i - 1) (j - 1)
  = next_V p s i j.
Proof.
  intros HU HV Hi Hj. unfold rhs_V, next_V, view. simpl.
  pose proof (view_shape nn _ HU) as HUc. pose proof (view_shape nn _ HV) as HVc.
  pose proof (laplacian_shape nn (dx p) _ HV) as HL.
  assert (i - 1 < nn - 2) as Hi' by lia. assert (j - 1 < nn - 2) as Hj' by lia.
  repeat first
    [ rewrite (ew_cell _ (nn - 2) (nn - 2)) by
        (repeat first [done | apply ew_shape | apply ew_l_shape | apply ew_r_shape])
    | rewrite (ew_l_cell _ (nn - 2) (nn - 2)) by
        (repeat first [done | apply ew_shape | apply ew_l_shape | apply ew_r_shape])
    | rewrite (ew_r_cell _ (nn - 2) (nn - 2)) by
        (repeat first [done | apply ew_shape | apply ew_l_shape | apply ew_r_shape])
    | progress change ((?B !!! (i - 1)) !!! (j - 1)) with (cell B (i - 1) (j - 1)) ].
  rewrite !(view_cell nn) by done.
  by replace (i - 1 + 1) with i by lia; replace (j - 1 + 1) with j by lia.
Qed.

Lemma step_rhs p s :
  step p s =
    (U1 ← neumann (assign_interior (U s)
            (rhs_U p (laplacian (dx p) (U s)) (view fU) (view fV) s));
     V1 ← neumann (assign_interior (V s)
            (rhs_V p (laplacian (dx p) (V s)) (view fU) (view fV) s));
     OK (tt, {| U := U1; V := V1 |})).
Proof. by rewrite step_unfold. Qed.

(** On fields with at least two rows an iteration raises nothing and keeps
    the shapes; every cell of the result is a copy of a cell of the array
    the interior assignment produced. *)
Lemma step_ok nn p s :
  is_grid nn (U s) → is_grid nn (V s) → 2 ≤ nn →
  ∃ s', step p s = OK (tt, s') ∧ is_grid nn (U s') ∧ is_grid nn (V s') ∧
    ∀ i j, i < nn → j < nn →
      cell (U s') i j =
        cell (assign_interior (U s)
                (rhs_U p (laplacian (dx p) (U s)) (view fU) (view fV) s))
             (nearest nn i) (nearest nn j) ∧
      cell (V s') i j =
        cell (assign_interior (V s)
                (rhs_V p (laplacian (dx p) (V s)) (view fU) (view fV) s))
             (nearest nn i) (nearest nn j).
Proof.
  intros HU HV Hn. rewrite step_rhs.
  pose proof (assign_interior_shape nn nn (U s)
    (rhs_U p (laplacian (dx p) (U s)) (view fU) (view fV) s) HU) as HaU.
  pose proof (assign_interior_shape nn nn (V s)
    (rhs_V p (laplacian (dx p) (V s)) (view fU) (view fV) s) HV) as HaV.
  destruct (neumann_spec nn nn _ HaU Hn Hn) as (U1 & -> & HU1 & HcU).
  destruct (neumann_spec nn nn _ HaV Hn Hn) as (V1 & -> & HV1 & HcV).
  eexists. split; [done|]. simpl. split; [done|]. split; [done|].
  intros i j Hi Hj. split; [by apply HcU|by apply HcV].
Qed.

(** With an interior (three rows or more) every cell of the result holds
    the new value of the nearest interior cell. *)
Lemma step_cells nn p s :
  is_grid nn (U s) → is_grid nn (V s) → 3 ≤ nn →
  ∃ s', step p s = OK (tt, s') ∧ is_grid nn (U s') ∧ is_grid nn (V s') ∧
    ∀ i j, i < nn → j < nn →
      cell (U s') i j = next_U p s (nearest nn i) (nearest nn j) ∧
      cell (V s') i j = next_V p s (nearest nn i) (nearest nn j).
Proof.
  intros HU HV Hn.
  destruct (step_ok nn p s HU HV ltac:(lia)) as (s' & Hs' & HU' & HV' & Hc).
  exists s'. split; [done|]. split; [done|]. split; [done|].
  intros i j Hi Hj. destruct (Hc i j Hi Hj) as [-> ->].
  assert (1 ≤ nearest nn i < nn - 1) as Hi'
    by (unfold nearest; repeat case_decide; lia).
  assert (1 ≤ nearest nn j < nn - 1) as Hj'
    by (unfold nearest; repeat case_decide; lia).
  rewrite !(assign_interior_cell nn nn)
    by (done || lia || by apply rhs_U_shape || by apply rhs_V_shape).
  rewrite !decide_True by done.
  by rewrite (rhs_U_cell nn), (rhs_V_cell nn).
Qed.

(** The loop keeps running: any number of iterations on fields with at
    least two rows ends without an exception, on fields of the same
    shape. *)
Lemma for_range_step_ok nn p m s :
  is_grid nn (U s) → is_grid nn (V s) → 2 ≤ nn →
  ∃ s', for_range m (step p) s = OK (tt, s') ∧
        is_grid nn (U s') ∧ is_grid nn (V s').
Proof.
  intros HU HV Hn. revert s HU HV.
  induction m as [|m IH]; intros s HU HV; [by exists s|].
  destruct (step_ok nn p s HU HV Hn) as (s1 & Hs1 & HU1 & HV1 & _).
  destruct (IH s1 HU1 HV1) as (s' & Hs' & ? & ?).
  exists s'. split; [|done]. simpl. unfold bind. by rewrite Hs1.
Qed.





End Step.

(** * Properties that hold in every arithmetic *)

Section Structure.
Context `{Arith F}.
Local Abbreviation grid := (list (list F)).
Implicit Types (Z : grid) (i j nn : nat) (p : params F) (s : state F).

(** C3. On an [nn]×[nn] field with [nn ≥ 3], [laplacian] returns an
    [(nn-2)]×[(nn-2)] array [L] with
    [L[i-1][j-1] = (Z[i-1][j] + Z[i][j-1] + Z[i+1][j] + Z[i][j+1] - 4*Z[i][j]) / dx**2]
    for all [1 ≤ i, j ≤ nn-2], whatever [dx] is; and a call of it leaves the
    arrays of the notebook as they were. *)
Theorem laplacian_five_point nn (dx : F) Z :
  is_grid nn Z → 3 ≤ nn →
  has_shape (nn - 2) (nn - 2) (laplacian dx Z) ∧
  (∀ i j, 1 ≤ i ≤ nn - 2 → 1 ≤ j ≤ nn - 2 →
     cell (laplacian dx Z) (i - 1) (j - 1) =
       div (sub (add (add (add (cell Z (i - 1) j) (cell Z i (j - 1)))
                          (cell Z (i + 1) j))
                     (cell Z i (j + 1)))
                (mul (of_int 4) (cell Z i j)))
           (pow dx 2)) ∧
  (∀ s x, get x s = Z → call_laplacian dx x s = OK (laplacian dx Z, s)).
Proof.
  intros HZ Hn. split; [by apply laplacian_shape|]. split.
  - intros i j Hi Hj.
    rewrite (laplacian_cell nn) by (done || lia).
    by replace (i - 1 + 1) with i by lia; replace (j - 1 + 1) with j by lia;
       replace (i - 1 + 2) with (i + 1) by lia;
       replace (j - 1 + 2) with (j + 1) by lia.
  - intros s x <-. done.
Qed.

(** C1. One iteration on [nn]×[nn] fields, [nn ≥ 3], sets every interior
    cell of [U] to [U + dt * (a * Laplacian(U) + U - U**3 - V + k)] and every
    interior cell of [V] to [V + dt * (b * Laplacian(V) + U - V) / tau], all
    of [U], [V] and the two Laplacians on the right being the values before
    the iteration. *)
Theorem step_interior_update nn p s :
  is_grid nn (U s) → is_grid nn (V s) → 3 ≤ nn →
  ∃ s', step p s = OK (tt, s') ∧
    ∀ i j, 1 ≤ i ≤ nn - 2 → 1 ≤ j ≤ nn - 2 →
      let u := cell (U s) i j in
      let v := cell (V s) i j in
      let lapU := cell (laplacian (dx p) (U s)) (i - 1) (j - 1) in
      let lapV := cell (laplacian (dx p) (V s)) (i - 1) (j - 1) in
      cell (U s') i j =
        add u (mul (dt p)
                 (add (sub (sub (add (mul (a p) lapU) u) (pow u 3)) v) (k p))) ∧
      cell (V s') i j =
        add v (div (mul (dt p) (sub (add (mul (b p) lapV) u) v)) (tau p)).
Proof.
  intros HU HV Hn.
  destruct (step_cells nn p s HU HV Hn) as (s' & Hs' & _ & _ & Hc).
  exists s'. split; [done|]. intros i j Hi Hj.
  destruct (Hc i j ltac:(lia) ltac:(lia)) as [HcU HcV].
  rewrite !nearest_interior in HcU, HcV by lia. done.
Qed.

(** C2. An iteration is the simultaneous update: its result is the result of
    computing both right-hand sides from one snapshot of the fields taken
    before the step and only then writing the two fields back.  The update
    of [V] therefore reads the old [U]. *)
Theorem step_simultaneous p s : step p s = step_snapshot p s.
Proof.
  destruct s as [U0 V0].
  cbv [step step_snapshot call_laplacian assign_view enforce eval rhs_U rhs_V
       view read write lift bind ret for_each get set U V fst snd
       mbind result_bind].
  destruct (neumann (assign_interior U0 _)) as [U1|e]; [|done].
  by destruct (neumann (assign_interior V0 _)) as [V1|e].
Qed.

(** C4. On an [nn]×[nn] field, [nn ≥ 3], the Neumann block is the two row
    copies followed by the two column copies applied to the row-updated
    array [R]; each corner ends with the value its column copy reads in [R],
    which is the value the field held diagonally inwards: the final
    [Z[0][0]] is the former [Z[1][1]]. *)
Theorem neumann_corners nn Z :
  is_grid nn Z → 3 ≤ nn →
  ∃ R Z',
    row_copies Z = OK R ∧ col_copies R = OK Z' ∧ neumann Z = OK Z' ∧
    (∀ j, j < nn → cell R 0 j = cell Z 1 j ∧
                   cell R (nn - 1) j = cell Z (nn - 2) j) ∧
    (∀ i, i < nn → cell Z' i 0 = cell R i 1 ∧
                   cell Z' i (nn - 1) = cell R i (nn - 2)) ∧
    cell Z' 0 0 = cell Z 1 1 ∧
    cell Z' 0 (nn - 1) = cell Z 1 (nn - 2) ∧
    cell Z' (nn - 1) 0 = cell Z (nn - 2) 1 ∧
    cell Z' (nn - 1) (nn - 1) = cell Z (nn - 2) (nn - 2).
Proof.
  intros HZ Hn.
  destruct (row_copies_spec nn nn Z HZ ltac:(lia)) as (R & HR & HsR & HcR).
  destruct (col_copies_spec nn nn R HsR ltac:(lia)) as (Z' & HZ' & HsZ' & HcZ').
  assert (nearest nn 0 = 1) as N0 by (unfold nearest; repeat case_decide; lia).
  assert (nearest nn (nn - 1) = nn - 2) as N1
    by (unfold nearest; repeat case_decide; lia).
  exists R, Z'. split; [done|]. split; [done|].
  split; [unfold neumann; rewrite HR; simpl; done|].
  split; [intros j Hj; rewrite !HcR by lia; by rewrite N0, N1|].
  split; [intros i Hi; rewrite !HcZ' by lia; by rewrite N0, N1|].
  rewrite !HcZ', !HcR by lia. by rewrite N0, N1.
Qed.

(** C8. On an [nn]×[nn] field, [nn ≥ 3], running the Neumann block on its
    own result changes nothing. *)
Theorem neumann_idempotent nn Z :
  is_grid nn Z → 3 ≤ nn →
  ∃ Z', neumann Z = OK Z' ∧ neumann Z' = OK Z'.
Proof.
  intros HZ Hn.
  destruct (neumann_spec nn nn Z HZ ltac:(lia) ltac:(lia)) as (Z1 & H1 & Hs1 & Hc1).
  destruct (neumann_spec nn nn Z1 Hs1 ltac:(lia) ltac:(lia)) as (Z2 & H2 & Hs2 & Hc2).
  exists Z1. split; [done|]. rewrite H2. f_equal.
  apply (grid_ext nn nn); [done..|]. intros i j Hi Hj.
  rewrite Hc2 by done.
  rewrite Hc1 by (apply nearest_lt; lia).
  rewrite Hc1 by done.
  by rewrite !nearest_idemp by lia.
Qed.

(** C10. On an [nn]×[nn] field, [nn ≥ 3], the Neumann block leaves every
    interior cell ([1 ≤ i, j ≤ nn-2]) as it was. *)
Theorem neumann_interior_unchanged nn Z :
  is_grid nn Z → 3 ≤ nn →
  ∃ Z', neumann Z = OK Z' ∧
    ∀ i j, 1 ≤ i ≤ nn - 2 → 1 ≤ j ≤ nn - 2 → cell Z' i j = cell Z i j.
Proof.
  intros HZ Hn.
  destruct (neumann_spec nn nn Z HZ ltac:(lia) ltac:(lia)) as (Z' & HZ' & _ & Hc).
  exists Z'. split; [done|]. intros i j Hi Hj.
  rewrite Hc by lia. by rewrite !nearest_interior by lia.
Qed.

End Structure.

(** * Properties in exact arithmetic *)

Section Exact.
Implicit Types (c x y : Qc) (p : params Qc) (i j nn : nat).






(** *** Constant states *)



(** *** The parameter cells *)


Lemma pydiv_zero x : pydiv x 0%Qc = Raise ZeroDivisionError.
Proof. done. Qed.




Lemma Qc_of_Z_pos (z : Z) : (0 < z)%Z → (0 < Qc_of_Z z)%Qc.
Proof. intros Hz. rewrite <-Z2Qc_inj_0. by apply (proj1 (Z2Qc_inj_lt 0 z)). Qed.












(** *** The whole notebook *)



End Exact.

(** * Concrete runs *)

(** Writing [U] before the right-hand side of [V] is evaluated gives another
    [V]: the two orders are told apart by their results. *)
Lemma step_sequential_differs :
  step_sequential example_params sample_state ≠ step example_params sample_state.
Proof.
  intros Heq.
  apply (f_equal (λ r, match r with
                       | OK (_, s) => this (cell (V s) 1 1)
                       | Raise _ => 0%Q
                       end)) in Heq.
  vm_compute in Heq. discriminate.
Qed.

Lemma laplacian_five_point_witness :
  is_grid 3 sample_field ∧ 3 ≤ 3 ∧
  has_shape (3 - 2) (3 - 2) (laplacian (Qc_of_Z 1) sample_field).
Proof.
  split; [reflexivity|]. split; [lia|].
  apply (laplacian_five_point 3 (Qc_of_Z 1) sample_field); [reflexivity|lia].
Defined.

Lemma step_interior_update_witness :
  is_grid 3 (U sample_state) ∧ is_grid 3 (V sample_state) ∧ 3 ≤ 3 ∧
  ∃ s', step example_params sample_state = OK (tt, s').
Proof.
  split; [reflexivity|]. split; [reflexivity|]. split; [lia|].
  destruct (step_interior_update 3 example_params sample_state)
    as (s' & Hs' & _); [reflexivity|reflexivity|lia|].
  by exists s'.
Defined.

Lemma neumann_corners_witness :
  is_grid 3 sample_field ∧ 3 ≤ 3 ∧
  ∃ R Z', row_copies sample_field = OK R ∧ col_copies R = OK Z' ∧
          cell Z' 0 0 = cell sample_field 1 1.
Proof.
  split; [reflexivity|]. split; [lia|].
  destruct (neumann_corners 3 sample_field)
    as (R & Z' & HR & HZ' & _ & _ & _ & Hc & _); [reflexivity|lia|].
  by exists R, Z'.
Defined.

Lemma neumann_idempotent_witness :
  is_grid 3 sample_field ∧ 3 ≤ 3 ∧
  ∃ Z', neumann sample_field = OK Z' ∧ neumann Z' = OK Z'.
Proof.
  split; [reflexivity|]. split; [lia|].
  apply (neumann_idempotent 3 sample_field); [reflexivity|lia].
Defined.

Lemma neumann_interior_unchanged_witness :
  is_grid 3 sample_field ∧ 3 ≤ 3 ∧
  ∃ Z', neumann sample_field = OK Z' ∧
    ∀ i j, 1 ≤ i ≤ 3 - 2 → 1 ≤ j ≤ 3 - 2 → cell Z' i j = cell sample_field i j.
Proof.
  split; [reflexivity|]. split; [lia|].
  apply (neumann_interior_unchanged 3 sample_field); [reflexivity|lia].
Defined.




(** * Further properties of the boundary block and of an iteration *)

Section Coverage.
Context `{Arith F}.
Local Abbreviation grid := (list (list F)).
Implicit Types (Z g X : grid) (i j nn : nat) (p : params F) (s : state F).

Lemma nearest_border nn :
  2 ≤ nn →
  nearest nn 0 = nearest nn 1 ∧ nearest nn (nn - 1) = nearest nn (nn - 2).
Proof. unfold nearest. intros. repeat case_decide; lia. Qed.

Lemma neumann_flux nn Z :
  is_grid nn Z → 2 ≤ nn →
  ∃ Z', neumann Z = OK Z' ∧ is_grid nn Z' ∧ zero_flux nn Z'.
Proof.
  intros HZ Hn.
  destruct (neumann_spec nn nn Z HZ Hn Hn) as (Z' & HZ' & Hs & Hc).
  exists Z'. split; [done|]. split; [done|]. intros i Hi.
  destruct (nearest_border nn Hn) as [N0 N1].
  rewrite !Hc by lia. by rewrite N0, N1.
Qed.

(** X1. On an [nn]×[nn] field with [nn ≥ 2] the Neumann block raises
    nothing and leaves a field of the same shape whose border rows and
    columns repeat their inner neighbours. *)
Theorem neumann_zero_flux nn Z :
  is_grid nn Z → 2 ≤ nn →
  ∃ Z', neumann Z = OK Z' ∧ is_grid nn Z' ∧ zero_flux nn Z'.
Proof.
  intros HZ Hn.
  destruct (neumann_spec nn nn Z HZ Hn Hn) as (Z' & HZ' & Hs & Hc).
  exists Z'. split; [done|]. split; [done|]. intros i Hi.
  destruct (nearest_border nn Hn) as [N0 N1].
  rewrite !Hc by lia. by rewrite N0, N1.
Qed.

Lemma for_range_snoc m (body : M F unit) s :
  for_range (S m) body s = bind (for_range m body) (λ _, body) s.
Proof.
  revert s. induction m as [|m IH]; intros s.
  - simpl. unfold bind, ret. by destruct (body s) as [[[] ?]|].
  - change (for_range (S (S m)) body s)
      with (bind body (λ _, for_range (S m) body) s).
    unfold bind at 1. destruct (body s) as [[[] s1]|e] eqn:Hb.
    + rewrite IH. simpl. unfold bind. by rewrite Hb.
    + simpl. unfold bind. by rewrite Hb.
Qed.

(** X2. Once the loop has run at least one iteration on [nn]×[nn] fields,
    [nn ≥ 2], both fields are [nn]×[nn] and satisfy the Neumann condition,
    and no exception was raised. *)
Theorem loop_keeps_zero_flux nn p m s :
  is_grid nn (U s) → is_grid nn (V s) → 2 ≤ nn →
  ∃ s', for_range (S m) (step p) s = OK (tt, s') ∧
        is_grid nn (U s') ∧ is_grid nn (V s') ∧
        zero_flux nn (U s') ∧ zero_flux nn (V s').
Proof.
  intros HU HV Hn. rewrite for_range_snoc. unfold bind.
  destruct (for_range_step_ok nn p m s HU HV Hn) as (s1 & -> & HU1 & HV1).
  rewrite step_rhs.
  destruct (neumann_flux nn _ (assign_interior_shape nn nn (U s1)
    (rhs_U p (laplacian (dx p) (U s1)) (view fU) (view fV) s1) HU1) Hn)
    as (U' & -> & HsU & HfU).
  destruct (neumann_flux nn _ (assign_interior_shape nn nn (V s1)
    (rhs_V p (laplacian (dx p) (V s1)) (view fU) (view fV) s1) HV1) Hn)
    as (V' & -> & HsV & HfV).
  by eexists.
Qed.

(** X3. The row copies and the column copies commute: the block gives the
    same field whichever pair runs first. *)
Theorem boundary_copies_commute nn Z :
  is_grid nn Z → 2 ≤ nn →
  (R ← col_copies Z; row_copies R) = neumann Z.
Proof.
  intros HZ Hn.
  destruct (neumann_spec nn nn Z HZ Hn Hn) as (Z1 & -> & Hs1 & Hc1).
  destruct (col_copies_spec nn nn Z HZ Hn) as (C & -> & HsC & HcC). simpl.
  destruct (row_copies_spec nn nn C HsC Hn) as (Z2 & -> & Hs2 & Hc2).
  f_equal. apply (grid_ext nn nn); [done..|]. intros i j Hi Hj.
  rewrite Hc2, HcC, Hc1 by (done || by apply nearest_lt). done.
Qed.

(** X4. The block reads interior cells only: two [nn]×[nn] fields,
    [nn ≥ 3], with the same interior leave it as the same field. *)
Theorem neumann_reads_interior_only nn Z1 Z2 :
  is_grid nn Z1 → is_grid nn Z2 → 3 ≤ nn →
  (∀ i j, 1 ≤ i ≤ nn - 2 → 1 ≤ j ≤ nn - 2 → cell Z1 i j = cell Z2 i j) →
  neumann Z1 = neumann Z2.
Proof.
  intros H1 H2 Hn Heq.
  destruct (neumann_spec nn nn Z1 H1 ltac:(lia) ltac:(lia)) as (Z1' & -> & Hs1 & Hc1).
  destruct (neumann_spec nn nn Z2 H2 ltac:(lia) ltac:(lia)) as (Z2' & -> & Hs2 & Hc2).
  f_equal. apply (grid_ext nn nn); [done..|]. intros i j Hi Hj.
  rewrite Hc1, Hc2 by done.
  apply Heq; unfold nearest; repeat case_decide; lia.
Qed.

(** X5. An iteration never reads a corner: two states of [nn]×[nn] fields,
    [nn ≥ 3], that agree everywhere but at the corners have the same
    successor. *)
Theorem step_ignores_corners nn p s1 s2 :
  is_grid nn (U s1) → is_grid nn (V s1) →
  is_grid nn (U s2) → is_grid nn (V s2) → 3 ≤ nn →
  (∀ i j, i < nn → j < nn → ¬ corner nn i j →
     cell (U s1) i j = cell (U s2) i j ∧ cell (V s1) i j = cell (V s2) i j) →
  step p s1 = step p s2.
Proof.
  intros HU1 HV1 HU2 HV2 Hn Heq.
  destruct (step_cells nn p s1 HU1 HV1 Hn) as ([U1' V1'] & -> & HsU1 & HsV1 & Hc1).
  destruct (step_cells nn p s2 HU2 HV2 Hn) as ([U2' V2'] & -> & HsU2 & HsV2 & Hc2).
  simpl in *.
  assert (∀ i j, 1 ≤ i < nn - 1 → 1 ≤ j < nn - 1 →
            next_U p s1 i j = next_U p s2 i j ∧
            next_V p s1 i j = next_V p s2 i j) as Hnext.
  { intros i j Hi Hj. unfold next_U, next_V.
    rewrite !(laplacian_cell nn) by (done || lia).
    replace (i - 1 + 1) with i by lia. replace (j - 1 + 1) with j by lia.
    replace (i - 1 + 2) with (i + 1) by lia.
    replace (j - 1 + 2) with (j + 1) by lia.
    destruct (Heq i j) as [-> ->]; [lia|lia|unfold corner; lia|].
    destruct (Heq (i - 1) j) as [-> ->]; [lia|lia|unfold corner; lia|].
    destruct (Heq i (j - 1)) as [-> ->]; [lia|lia|unfold corner; lia|].
    destruct (Heq (i + 1) j) as [-> ->]; [lia|lia|unfold corner; lia|].
    destruct (Heq i (j + 1)) as [-> ->]; [lia|lia|unfold corner; lia|].
    done. }
  do 3 f_equal; apply (grid_ext nn nn); try done; intros i j Hi Hj.
  - destruct (Hc1 i j Hi Hj) as [-> _]. destruct (Hc2 i j Hi Hj) as [-> _].
    apply Hnext; unfold nearest; repeat case_decide; lia.
  - destruct (Hc1 i j Hi Hj) as [_ ->]. destruct (Hc2 i j Hi Hj) as [_ ->].
    apply Hnext; unfold nearest; repeat case_decide; lia.
Qed.

(** X6. A 2×2 field has no interior: an iteration raises nothing and
    fills each field with the value its cell [(1, 1)] held. *)
Theorem step_without_interior p s :
  is_grid 2 (U s) → is_grid 2 (V s) →
  step p s = OK (tt, {| U := full 2 2 (cell (U s) 1 1);
                        V := full 2 2 (cell (V s) 1 1) |}).
Proof.
  intros HU HV.
  destruct (step_ok 2 p s HU HV ltac:(lia)) as ([U' V'] & -> & HsU & HsV & Hc).
  simpl in *.
  assert (∀ i, i < 2 → nearest 2 i = 1) as Hnear
    by (intros; unfold nearest; repeat case_decide; lia).
  do 3 f_equal; apply (grid_ext 2 2); try done; try apply full_shape;
    intros i j Hi Hj; rewrite full_cell by done.
  - destruct (Hc i j Hi Hj) as [-> _]. rewrite !Hnear by done.
    rewrite (assign_interior_cell 2 2) by (done || lia || by apply rhs_U_shape).
    by rewrite decide_False by lia.
  - destruct (Hc i j Hi Hj) as [_ ->]. rewrite !Hnear by done.
    rewrite (assign_interior_cell 2 2) by (done || lia || by apply rhs_V_shape).
    by rewrite decide_False by lia.
Qed.

(** X7. The interior slice and the interior assignment are inverse to each
    other: reading the slice after assigning [X] gives [X], and assigning
    the slice a field already holds changes nothing. *)
Theorem interior_assign_read nn g X :
  is_grid nn g → has_shape (nn - 2) (nn - 2) X →
  slice2 1 (upto (-1)) 1 (upto (-1)) (assign_interior g X) = X ∧
  assign_interior g (slice2 1 (upto (-1)) 1 (upto (-1)) g) = g.
Proof using H.
  intros Hg HX. split.
  - apply (grid_ext (nn - 2) (nn - 2));
      [by apply view_shape, assign_interior_shape|done|].
    intros i j Hi Hj.
    rewrite (view_cell nn) by (done || by apply assign_interior_shape).
    rewrite (assign_interior_cell nn nn) by (done || lia).
    rewrite decide_True by lia.
    by replace (i + 1 - 1) with i by lia; replace (j + 1 - 1) with j by lia.
  - apply (grid_ext nn nn); [by apply assign_interior_shape|done|].
    intros i j Hi Hj.
    rewrite (assign_interior_cell nn nn) by (done || by apply view_shape).
    case_decide as Hij; [|done].
    rewrite (view_cell nn) by (done || lia).
    by replace (i - 1 + 1) with i by lia; replace (j - 1 + 1) with j by lia.
Qed.

(** X8. On a field with fewer than three rows the Laplacian is the empty
    array: the slices clamp, nothing is raised. *)
Theorem laplacian_without_interior nn (dx : F) Z :
  is_grid nn Z → nn ≤ 2 → laplacian dx Z = [].
Proof.
  intros HZ Hn. pose proof (laplacian_shape nn dx Z HZ) as Hs.
  apply has_shape_length in Hs. apply nil_length_inv. lia.
Qed.

End Coverage.

(** * Further properties in exact arithmetic *)

Section ExactCoverage.
Implicit Types (c x y : Qc) (p : params Qc) (i j nn : nat).
Local Open Scope array_scope.








End ExactCoverage.

(** * Concrete runs of the further properties *)

Lemma neumann_zero_flux_witness :
  is_grid 3 sample_field ∧ 2 ≤ 3 ∧
  ∃ Z', neumann sample_field = OK Z' ∧ is_grid 3 Z' ∧ zero_flux 3 Z'.
Proof.
  split; [reflexivity|]. split; [lia|].
  apply (neumann_zero_flux 3 sample_field); [reflexivity|lia].
Defined.

Lemma loop_keeps_zero_flux_witness :
  is_grid 3 (U sample_state) ∧ is_grid 3 (V sample_state) ∧ 2 ≤ 3 ∧
  ∃ s', for_range 2 (step example_params) sample_state = OK (tt, s') ∧
        is_grid 3 (U s') ∧ is_grid 3 (V s') ∧
        zero_flux 3 (U s') ∧ zero_flux 3 (V s').
Proof.
  split; [reflexivity|]. split; [reflexivity|]. split; [lia|].
  apply (loop_keeps_zero_flux 3 example_params 1 sample_state);
    [reflexivity|reflexivity|lia].
Defined.

Lemma boundary_copies_commute_witness :
  is_grid 3 sample_field ∧ 2 ≤ 3 ∧
  (R ← col_copies sample_field; row_copies R) = neumann sample_field.
Proof.
  split; [reflexivity|]. split; [lia|].
  apply (boundary_copies_commute 3 sample_field); [reflexivity|lia].
Defined.

Lemma neumann_reads_interior_only_witness :
  is_grid 3 sample_field ∧ is_grid 3 other_border ∧ 3 ≤ 3 ∧
  neumann sample_field = neumann other_border.
Proof.
  split; [reflexivity|]. split; [reflexivity|]. split; [lia|].
  apply (neumann_reads_interior_only 3 sample_field other_border);
    [reflexivity|reflexivity|lia|].
  intros i j Hi Hj.
  assert (i = 1) as -> by lia. assert (j = 1) as -> by lia. reflexivity.
Defined.

Lemma step_ignores_corners_witness :
  step example_params sample_state =
  step example_params {| U := other_corners; V := full 3 3 (Qc_of_Z 1) |}.
Proof.
  apply (step_ignores_corners 3 example_params sample_state
           {| U := other_corners; V := full 3 3 (Qc_of_Z 1) |});
    [reflexivity|reflexivity|reflexivity|reflexivity|lia|].
  intros i j Hi Hj Hc.
  destruct i as [|[|[|i]]]; [| | |lia];
    (destruct j as [|[|[|j]]]; [| | |lia]);
    first [ split; reflexivity | exfalso; apply Hc; unfold corner; simpl; lia ].
Defined.

Lemma step_without_interior_witness :
  is_grid 2 small_field ∧
  step example_params {| U := small_field; V := small_field |} =
    OK (tt, {| U := full 2 2 (cell small_field 1 1);
               V := full 2 2 (cell small_field 1 1) |}).
Proof.
  split; [reflexivity|].
  apply (step_without_interior example_params
           {| U := small_field; V := small_field |}); reflexivity.
Defined.

Lemma interior_assign_read_witness :
  is_grid 3 sample_field ∧ has_shape (3 - 2) (3 - 2) [[Qc_of_Z 0]] ∧
  slice2 1 (upto (-1)) 1 (upto (-1))
    (assign_interior sample_field [[Qc_of_Z 0]]) = [[Qc_of_Z 0]].
Proof.
  split; [reflexivity|]. split; [reflexivity|].
  apply (interior_assign_read 3 sample_field [[Qc_of_Z 0]]); reflexivity.
Defined.

Lemma laplacian_without_interior_witness :
  is_grid 2 small_field ∧ 2 ≤ 2 ∧ laplacian (Qc_of_Z 1) small_field = [].
Proof.
  split; [reflexivity|]. split; [lia|].
  apply (laplacian_without_interior 2 (Qc_of_Z 1) small_field);
    [reflexivity|lia].
Defined.





